(** * DALI image front-end: format classifier and [Image] life cycle

    A shallow embedding of [dali/image/image.cc]:
    - [ListSupportedExtensions] and [HasKnownImageExtension], the file-name
      classifier, over byte strings, with the standard error stream passed
      explicitly;
    - the [Image] class ([Decode], [GetImage], [PeekShape], [GetShape]) as
      computations in a state-and-exception monad over the object's fields.

    The header [dali/image/image.h] is not part of the sources at hand: the
    two extension tables, the field declarations of [Image] and the two
    virtual extension points are parameters of the development. *)

From Stdlib Require Import String Ascii List Bool Arith ZArith Lia.
Import ListNotations.

Set Implicit Arguments.

(** ** Characters and strings *)

(** A [std::string] is a finite sequence of bytes; it may contain NUL. *)
Definition std_string := list ascii.

(** A [const char *] is modelled by the bytes found at the pointer.  The
    terminating NUL of the array is implicit at the end of the list; a NUL
    inside the list ends the C string earlier, as it does in memory. *)
Definition c_string := list ascii.

(** An output stream is the sequence of bytes written to it so far. *)
Definition ostream := list ascii.

Definition NUL : ascii := ascii_of_nat 0.
Definition LF : ascii := ascii_of_nat 10.

(** String literals of the source. *)
Definition lit (s : string) : list ascii := list_ascii_of_string s.

Definition is_nul (c : ascii) : bool := Ascii.eqb c NUL.

(** [::tolower] in the default "C" locale: the 26 upper-case ASCII letters
    are moved to lower case, every other byte is left alone. *)
Definition tolower (c : ascii) : ascii :=
  let n := nat_of_ascii c in
  if (65 <=? n) && (n <=? 90) then ascii_of_nat (n + 32) else c.

(** [strlen]: number of bytes before the first NUL. *)
Fixpoint strlen (s : c_string) : nat :=
  match s with
  | [] => 0
  | c :: t => if is_nul c then 0 else S (strlen t)
  end.

(** The characters of the C string at [s]: what [strlen] bytes hold. *)
Definition cstr_chars (s : c_string) : std_string := firstn (strlen s) s.

(** [p[0]] for a [const char *]: past the list sits the terminator. *)
Definition deref (s : c_string) : ascii := hd NUL s.

(** [strncmp]: compares at most [n] bytes as unsigned chars and stops at
    the first difference or after a NUL. *)
Fixpoint strncmp (s1 s2 : c_string) (n : nat) : Z :=
  match n with
  | 0 => 0%Z
  | S n' =>
      let c1 := deref s1 in
      let c2 := deref s2 in
      if negb (Ascii.eqb c1 c2)
      then (Z.of_nat (nat_of_ascii c1) - Z.of_nat (nat_of_ascii c2))%Z
      else if is_nul c1 then 0%Z
      else strncmp (tl s1) (tl s2) n'
  end.

(** [std::string::c_str()]: the bytes of the string, followed by the
    terminator; embedded NULs are still there in memory. *)
Definition c_str (s : std_string) : c_string := s.

(** [traits_type::compare(data + pos, s, n) == 0]. *)
Definition match_at (s : std_string) (pos : nat) (e : std_string) : bool :=
  if list_eq_dec ascii_dec (firstn (length e) (skipn pos s)) e
  then true else false.

(** Downward scan of [rfind]: tries [pos], [pos - 1], ..., [0]. *)
Fixpoint rfind_from (s e : std_string) (pos : nat) : option nat :=
  if match_at s pos e then Some pos
  else match pos with
       | 0 => None
       | S p => rfind_from s e p
       end.

(** [std::string::rfind] on a [const char *]: the highest position at which the
    C string occurs, [None] for [npos]. *)
Definition rfind (s : std_string) (ext : c_string) : option nat :=
  let e := cstr_chars ext in
  if length e <=? length s
  then rfind_from s e (length s - length e)
  else None.

(** ** The format classifier *)

Section Classifier.

(** The two tables of [image.h], arrays of [const char *]. *)
Variable kKnownImageExtensions : list c_string.
Variable kSkipImageExtensions : list c_string.

(** The body of the [for] loop of [ListSupportedExtensions], run for the
    [todo] remaining indices from [i] on.  [known_extensions_count - 1]
    is only evaluated inside the loop, where the count is at least 1, so
    the subtraction never wraps. *)
Fixpoint ListSupportedExtensions_loop
    (known_extensions_count : nat) (todo : nat) (i : nat) (ss : ostream)
    : ostream :=
  match todo with
  | 0 => ss
  | S todo' =>
      let ss := ss ++ cstr_chars (nth i kKnownImageExtensions []) in
      let ss :=
        if negb (i =? known_extensions_count - 1)
        then ss ++ lit ", " else ss in
      ListSupportedExtensions_loop known_extensions_count todo' (S i) ss
  end.

Definition ListSupportedExtensions : std_string :=
  let known_extensions_count := length kKnownImageExtensions in
  ListSupportedExtensions_loop
    known_extensions_count known_extensions_count 0 [].

(** First loop of [HasKnownImageExtension]; [true] when the loop leaves
    the function through its [return false]. *)
Fixpoint skip_loop (exts : list c_string) (image_path : std_string) : bool :=
  match exts with
  | [] => false
  | ext :: rest =>
      if (strlen ext =? strlen (c_str image_path))
         && (strncmp ext (c_str image_path) (strlen ext) =? 0)%Z
      then true
      else skip_loop rest image_path
  end.

(** Second loop; [true] when it leaves through its [return true]. *)
Fixpoint known_loop (exts : list c_string) (path_low : std_string) : bool :=
  match exts with
  | [] => false
  | ext :: rest =>
      match rfind path_low ext with
      | Some pos =>
          if pos + strlen ext =? length path_low then true
          else known_loop rest path_low
      | None => known_loop rest path_low
      end
  end.

(** The text sent to [std::cerr] before [std::endl]. *)
Definition warning_text (image_path : std_string) : std_string :=
  lit "[Warning]: File " ++ image_path ++
  lit " has extension that is not supproted by the decoder. " ++
  lit "Supported extensions: " ++ ListSupportedExtensions ++ lit ".".

(** [std::endl] writes a line feed (and flushes). *)
Definition endl : std_string := [LF].

Definition HasKnownImageExtension
    (image_path : std_string) (cerr : ostream) : bool * ostream :=
  let path_low := map tolower image_path in
  if skip_loop kSkipImageExtensions image_path then (false, cerr)
  else if known_loop kKnownImageExtensions path_low then (true, cerr)
  else (false, cerr ++ warning_text image_path ++ endl).

End Classifier.

(** ** Reading the classifier in the spec's terms *)

(** [s] ends with [e]. *)
Definition ends_with (s e : std_string) : Prop := exists pre, s = pre ++ e.

(** Entries joined by [", "], no separator after the last one. *)
Fixpoint join_comma (l : list std_string) : std_string :=
  match l with
  | [] => []
  | [e] => e
  | e :: rest => e ++ lit ", " ++ join_comma rest
  end.

(** Splitting on [", "], left to right; [cur] is the field being read. *)
Fixpoint split_comma_from (cur : std_string) (s : std_string)
    : list std_string :=
  match s with
  | [] => [cur]
  | c :: s' =>
      match s' with
      | d :: s'' =>
          if Ascii.eqb c ","%char && Ascii.eqb d " "%char
          then cur :: split_comma_from [] s''
          else split_comma_from (cur ++ [c]) s'
      | [] => [cur ++ [c]]
      end
  end.

Definition split_comma (s : std_string) : list std_string :=
  split_comma_from [] s.

(** [e] holds [", "] somewhere. *)
Definition has_separator (e : std_string) : Prop :=
  exists a b, e = a ++ lit ", " ++ b.

(** ** The [Image] class *)

(** What a call can end in: a value, or a C++ exception. *)
Inductive outcome (E A : Type) : Type :=
| Returns (a : A)
| Raises (e : E).
Arguments Returns {E A} a.
Arguments Raises {E A} e.

(** [std::shared_ptr<T>]: null, or sharing one object. *)
Definition shared_ptr (T : Type) := option T.
Definition nullptr {T : Type} : shared_ptr T := None.

(** A buffer of [uint8_t]. *)
Definition bytes := list Byte.byte.

Section ImageClass.

(** [DALIImageType] and [Image::Shape] are declared in [image.h]. *)
Variable DALIImageType : Type.
Variable Shape : Type.
(** What the format-specific code may throw. *)
Variable ImplError : Type.

(** Exceptions that leave a method of [Image]. *)
Inductive exception : Type :=
| InvalidState (msg : string)
| ExtensionError (e : ImplError).

(** The fields of [Image].  [encoded_image_] points into a buffer that the
    caller owns and keeps alive and unchanged; it is modelled by the bytes
    it points to. *)
Record Image : Type := mkImage {
  encoded_image_ : bytes;
  length_ : N;
  image_type_ : DALIImageType;
  decoded_ : bool;
  decoded_image_ : shared_ptr bytes;
  shape_ : Shape
}.

(** The pure virtual extension points, one pair per image format.  They
    are [const] and cannot reach the private fields of [Image]; they are
    functions of their arguments that return or throw. *)
Variable DecodeImpl :
  DALIImageType -> bytes -> N -> outcome ImplError (shared_ptr bytes * Shape).
Variable PeekShapeImpl : bytes -> N -> outcome ImplError Shape.

(** Whatever default-initialisation leaves in [shape_]. *)
Variable shape_init : Shape.

(** A method body: reads and writes the object's fields, and returns or
    throws.  Writes made before a throw stay. *)
Definition method (A : Type) : Type := Image -> outcome exception A * Image.

Definition ret {A} (a : A) : method A := fun this => (Returns a, this).

Definition throw {A} (e : exception) : method A :=
  fun this => (Raises e, this).

Definition bind {A B} (m : method A) (k : A -> method B) : method B :=
  fun this =>
    match m this with
    | (Returns a, this') => k a this'
    | (Raises e, this') => (Raises e, this')
    end.

Notation "x <- m ;; k" := (bind m (fun x => k))
  (at level 61, m at next level, right associativity).
Notation "m ;;; k" := (bind m (fun _ => k))
  (at level 61, right associativity).

(** Reading a field. *)
Definition load {A} (field : Image -> A) : method A :=
  fun this => (Returns (field this), this).

(** Assignments to the three mutable fields. *)
Definition store_decoded_image_ (v : shared_ptr bytes) : method unit :=
  fun this =>
    (Returns tt,
     mkImage (encoded_image_ this) (length_ this) (image_type_ this)
             (decoded_ this) v (shape_ this)).

Definition store_shape_ (v : Shape) : method unit :=
  fun this =>
    (Returns tt,
     mkImage (encoded_image_ this) (length_ this) (image_type_ this)
             (decoded_ this) (decoded_image_ this) v).

Definition store_decoded_ (v : bool) : method unit :=
  fun this =>
    (Returns tt,
     mkImage (encoded_image_ this) (length_ this) (image_type_ this)
             v (decoded_image_ this) (shape_ this)).

(** A call into an extension point: its exception propagates. *)
Definition call {A} (r : outcome ImplError A) : method A :=
  fun this =>
    match r with
    | Returns a => (Returns a, this)
    | Raises e => (Raises (ExtensionError e), this)
    end.

(** Modelled from the spec: the macro [DALI_ENFORCE] is defined outside
    the sources at hand; a failed check is the spec's invalid-state
    error, carrying the message given at the call. *)
Definition DALI_ENFORCE (cond : bool) (msg : string) : method unit :=
  fun this =>
    if cond then (Returns tt, this) else (Raises (InvalidState msg), this).

(** Modelled from the spec: the constructor sets the three fields of its
    initialiser list; the default member initialisers are in [image.h],
    and by the spec the flag starts false and no decoded buffer is held. *)
Definition Image_ctor
    (encoded_buffer : bytes) (length : N) (image_type : DALIImageType)
    : Image :=
  mkImage encoded_buffer length image_type false nullptr shape_init.

Definition Decode : method unit :=
  d <- load decoded_ ;;
  DALI_ENFORCE (negb d) "Called decode for already decoded image" ;;;
  image_type <- load image_type_ ;;
  encoded_image <- load encoded_image_ ;;
  length <- load length_ ;;
  decoded <- call (DecodeImpl image_type encoded_image length) ;;
  store_decoded_image_ (fst decoded) ;;;
  store_shape_ (snd decoded) ;;;
  store_decoded_ true.

Definition GetImage : method (shared_ptr bytes) :=
  d <- load decoded_ ;;
  DALI_ENFORCE d "Image not decoded. Run Decode()" ;;;
  load decoded_image_.

Definition PeekShape : method Shape :=
  encoded_image <- load encoded_image_ ;;
  length <- load length_ ;;
  call (PeekShapeImpl encoded_image length).

Definition GetShape : method Shape :=
  d <- load decoded_ ;;
  DALI_ENFORCE d "Image not decoded. Run Decode()" ;;;
  load shape_.

(** The public operations on an existing object, and the object a call
    leaves behind, whether it returned or threw. *)
Inductive operation : Type := OpDecode | OpGetImage | OpPeekShape | OpGetShape.

Definition after (op : operation) (this : Image) : Image :=
  match op with
  | OpDecode => snd (Decode this)
  | OpGetImage => snd (GetImage this)
  | OpPeekShape => snd (PeekShape this)
  | OpGetShape => snd (GetShape this)
  end.

Definition after_all (ops : list operation) (this : Image) : Image :=
  fold_left (fun img op => after op img) ops this.

(** The call [Decode] makes into its extension point. *)
Definition decode_impl_of (img : Image) :=
  DecodeImpl (image_type_ img) (encoded_image_ img) (length_ img).

(** The object with the three mutable fields as [Decode] sets them. *)
Definition decoded_with
    (img : Image) (b : shared_ptr bytes) (s : Shape) : Image :=
  mkImage (encoded_image_ img) (length_ img) (image_type_ img) true b s.

(** The invalid-state error among the outcomes of a call. *)
Definition is_invalid_state {A} (r : outcome exception A) : bool :=
  match r with
  | Raises (InvalidState _) => true
  | _ => false
  end.

(** Whether a call returned. *)
Definition returned {A} (r : outcome exception A) : bool :=
  match r with
  | Returns _ => true
  | Raises _ => false
  end.

(** How many of the [Decode] calls in a sequence of operations return. *)
Fixpoint decode_returns (ops : list operation) (this : Image) : nat :=
  match ops with
  | [] => 0
  | op :: rest =>
      (match op with
       | OpDecode => if returned (fst (Decode this)) then 1 else 0
       | _ => 0
       end) + decode_returns rest (after op this)
  end.

End ImageClass.

Arguments InvalidState {ImplError} msg.
Arguments ExtensionError {ImplError} e.

(** The path, read as a C string, is an entry of the skip table. *)
Definition skip_match (skip : list c_string) (path : std_string) : Prop :=
  exists ext, In ext skip /\ cstr_chars ext = cstr_chars (c_str path).

(** The lower-cased path ends with an entry of the known table. *)
Definition known_match (known : list c_string) (path : std_string) : Prop :=
  exists ext, In ext known /\ ends_with (map tolower path) (cstr_chars ext).

(** Number of line feeds in a text. *)
Definition line_feeds (out : std_string) : nat := count_occ ascii_dec out LF.

(** Sample tables for the examples below. *)
Definition sample_known : list c_string :=
  [lit ".jpg"; lit ".jpeg"; lit ".png"; lit ".bmp"; lit "jpg"].
Definition sample_skip : list c_string :=
  [lit "thumbs.db"; lit "cover.jpg"].

(** A toy format for the examples: the first two bytes are height and
    width, one byte per pixel follows. *)
Inductive sample_type : Type := sample_RGB | sample_GRAY.

Definition sample_shape := list N.

Definition sample_PeekShapeImpl (buf : bytes) (len : N)
    : outcome string sample_shape :=
  match buf with
  | h :: w :: _ =>
      if (2 <=? len)%N then Returns [Byte.to_N h; Byte.to_N w; 1%N]
      else Raises "no header"%string
  | _ => Raises "no header"%string
  end.

Definition sample_DecodeImpl (t : sample_type) (buf : bytes) (len : N)
    : outcome string (shared_ptr bytes * sample_shape) :=
  match buf with
  | h :: w :: body =>
      if (len =? 2 + Byte.to_N h * Byte.to_N w)%N
      then Returns (Some (firstn (N.to_nat (Byte.to_N h * Byte.to_N w)) body),
                    [Byte.to_N h; Byte.to_N w; 1%N])
      else Raises "bad body"%string
  | _ => Raises "no header"%string
  end.

(** A 2x1 image, and the same header with the body cut short. *)
Definition sample_buffer : bytes := [Byte.x02; Byte.x01; Byte.xff; Byte.x00].
Definition sample_broken : bytes := [Byte.x02; Byte.x01; Byte.xff].

Definition sample_image : Image sample_type sample_shape :=
  Image_ctor [] sample_buffer 4 sample_RGB.
Definition sample_broken_image : Image sample_type sample_shape :=
  Image_ctor [] sample_broken 3 sample_RGB.

(** [e] occurs in [s] at position [pos]. *)
Definition occurs_at (s : std_string) (pos : nat) (e : std_string) : Prop :=
  pos + length e <= length s /\ firstn (length e) (skipn pos s) = e.

(** [e] holds a byte that [tolower] changes. *)
Definition has_upper_case (e : std_string) : Prop :=
  exists c, In c e /\ tolower c <> c.

(** * Properties *)

(** ** C strings *)

Lemma is_nul_true (c : ascii) : is_nul c = true <-> c = NUL.
Proof. unfold is_nul. apply Ascii.eqb_eq. Qed.

Lemma strlen_le (s : c_string) : strlen s <= length s.
Proof.
  induction s as [|c t IH]; simpl; [lia|].
  destruct (is_nul c); simpl; lia.
Qed.

Lemma cstr_chars_length (s : c_string) : length (cstr_chars s) = strlen s.
Proof.
  unfold cstr_chars. rewrite length_firstn. pose proof (strlen_le s). lia.
Qed.

Lemma cstr_chars_nil : cstr_chars [] = [].
Proof. reflexivity. Qed.

Lemma cstr_chars_cons (c : ascii) (t : c_string) :
  cstr_chars (c :: t) = if is_nul c then [] else c :: cstr_chars t.
Proof. unfold cstr_chars. simpl. destruct (is_nul c); reflexivity. Qed.

(** The characters of a C string hold no NUL. *)
Lemma cstr_chars_no_nul (s : c_string) : ~ In NUL (cstr_chars s).
Proof.
  induction s as [|c t IH]; [simpl; tauto|].
  rewrite cstr_chars_cons. destruct (is_nul c) eqn:E; [simpl; tauto|].
  intros [H|H]; [|tauto].
  apply is_nul_true in H. congruence.
Qed.

(** A NUL-free list is its own C string. *)
Lemma cstr_chars_id (s : c_string) : ~ In NUL s -> cstr_chars s = s.
Proof.
  induction s as [|c t IH]; intros H; [reflexivity|].
  rewrite cstr_chars_cons. destruct (is_nul c) eqn:E.
  - exfalso. apply H. left. apply is_nul_true in E. now subst c.
  - f_equal. apply IH. intros Hin. apply H. now right.
Qed.

Lemma cstr_chars_idem (s : c_string) : cstr_chars (cstr_chars s) = cstr_chars s.
Proof. apply cstr_chars_id, cstr_chars_no_nul. Qed.

(** Reading stops at the first NUL. *)
Lemma cstr_chars_at_nul (e rest : list ascii) :
  ~ In NUL e -> cstr_chars (e ++ NUL :: rest) = e.
Proof.
  induction e as [|c t IH]; intros H.
  - reflexivity.
  - simpl app. rewrite cstr_chars_cons. destruct (is_nul c) eqn:E.
    + exfalso. apply H. left. apply is_nul_true in E. now subst c.
    + f_equal. apply IH. intros Hin. apply H. now right.
Qed.

Lemma nat_of_ascii_diff (c d : ascii) :
  (Z.of_nat (nat_of_ascii c) - Z.of_nat (nat_of_ascii d) = 0)%Z -> c = d.
Proof.
  intros H. assert (E : nat_of_ascii c = nat_of_ascii d) by lia.
  rewrite <- (ascii_nat_embedding c), <- (ascii_nat_embedding d).
  now rewrite E.
Qed.

(** The test of the skip loop is equality of the two C strings. *)
Lemma skip_test_spec (ext p : c_string) :
  (strlen ext =? strlen p) && (strncmp ext p (strlen ext) =? 0)%Z = true
  <-> cstr_chars ext = cstr_chars p.
Proof.
  revert p. induction ext as [|c t IH]; intros p.
  - cbn [strlen strncmp]. rewrite cstr_chars_nil, Z.eqb_refl, andb_true_r.
    rewrite Nat.eqb_eq, <- (cstr_chars_length p).
    destruct (cstr_chars p); simpl; split; congruence.
  - rewrite cstr_chars_cons. simpl strlen.
    destruct (is_nul c) eqn:Ec.
    + cbn [strncmp]. rewrite Z.eqb_refl, andb_true_r.
      rewrite Nat.eqb_eq, <- (cstr_chars_length p).
      destruct (cstr_chars p); simpl; split; congruence.
    + destruct p as [|d q].
      * simpl. rewrite cstr_chars_nil. split; discriminate.
      * rewrite cstr_chars_cons. simpl strlen.
        destruct (is_nul d) eqn:Ed; [simpl; split; discriminate|].
        simpl strncmp. unfold deref. simpl hd. simpl tl.
        destruct (Ascii.eqb c d) eqn:Ecd; simpl negb; cbv iota.
        -- apply Ascii.eqb_eq in Ecd. subst d. rewrite Ec.
           change (S (strlen t) =? S (strlen q)) with (strlen t =? strlen q).
           rewrite IH. split; intros H; [now f_equal|now injection H].
        -- apply Ascii.eqb_neq in Ecd. split.
           ++ intros H. apply andb_true_iff in H. destruct H as [_ H].
              apply Z.eqb_eq in H. apply nat_of_ascii_diff in H. contradiction.
           ++ intros H. injection H as H _. contradiction.
Qed.

Example tolower_JPG : map tolower (lit "photo.JPG") = lit "photo.jpg".
Proof. reflexivity. Qed.

Example list_sample :
  ListSupportedExtensions sample_known = lit ".jpg, .jpeg, .png, .bmp, jpg".
Proof. reflexivity. Qed.

Example classify_photo :
  HasKnownImageExtension sample_known sample_skip (lit "photo.JPG") []
  = (true, []).
Proof. reflexivity. Qed.

Example classify_thumbs :
  HasKnownImageExtension sample_known sample_skip (lit "thumbs.db") []
  = (false, []).
Proof. reflexivity. Qed.

(** The skip table is matched against the path as given, not against its
    lower-cased copy. *)
Example classify_upper_thumbs :
  HasKnownImageExtension sample_known sample_skip (lit "THUMBS.DB") []
  = (false,
     lit "[Warning]: File THUMBS.DB has extension that is not supproted by the decoder. Supported extensions: .jpg, .jpeg, .png, .bmp, jpg."
     ++ [LF]).
Proof. reflexivity. Qed.

Example classify_readme :
  HasKnownImageExtension sample_known sample_skip (lit "readme.txt") []
  = (false,
     lit "[Warning]: File readme.txt has extension that is not supproted by the decoder. Supported extensions: .jpg, .jpeg, .png, .bmp, jpg."
     ++ [LF]).
Proof. reflexivity. Qed.

(** ** [rfind] and the suffix test *)

Lemma match_at_spec (s : std_string) (pos : nat) (e : std_string) :
  match_at s pos e = true <-> firstn (length e) (skipn pos s) = e.
Proof.
  unfold match_at.
  destruct (list_eq_dec ascii_dec (firstn (length e) (skipn pos s)) e);
    split; congruence.
Qed.

(** What [rfind_from] finds is an occurrence, not after the start. *)
Lemma rfind_from_found (s e : std_string) (pos p : nat) :
  rfind_from s e pos = Some p -> p <= pos /\ match_at s p e = true.
Proof.
  induction pos as [|k IH]; simpl.
  - destruct (match_at s 0 e) eqn:M; [|discriminate].
    intros H. injection H as <-. auto.
  - destruct (match_at s (S k) e) eqn:M.
    + intros H. injection H as <-. auto.
    + intros H. destruct (IH H). split; [lia|assumption].
Qed.

(** An occurrence at the start position is returned at once. *)
Lemma rfind_from_here (s e : std_string) (pos : nat) :
  match_at s pos e = true -> rfind_from s e pos = Some pos.
Proof. intros M. destruct pos; simpl; now rewrite M. Qed.

(** A position returned by [rfind] leaves room for the string: the sum
    in the caller's test does not wrap. *)
Lemma rfind_bound (s : std_string) (ext : c_string) (pos : nat) :
  rfind s ext = Some pos -> pos + strlen ext <= length s.
Proof.
  unfold rfind. rewrite cstr_chars_length.
  destruct (strlen ext <=? length s) eqn:L; [|discriminate].
  apply Nat.leb_le in L. intros H.
  apply rfind_from_found in H. lia.
Qed.

(** The test of the second loop is: the path ends with the extension. *)
Lemma known_test_spec (s : std_string) (ext : c_string) :
  match rfind s ext with
  | Some pos => pos + strlen ext =? length s
  | None => false
  end = true
  <-> ends_with s (cstr_chars ext).
Proof.
  unfold rfind, ends_with. rewrite <- (cstr_chars_length ext).
  set (e := cstr_chars ext). split.
  - destruct (length e <=? length s) eqn:L; [|discriminate].
    destruct (rfind_from s e (length s - length e)) as [pos|] eqn:R;
      [|discriminate].
    intros H. apply Nat.eqb_eq in H.
    apply rfind_from_found in R. destruct R as [_ M].
    apply match_at_spec in M.
    exists (firstn pos s).
    rewrite <- (firstn_skipn pos s) at 1. f_equal.
    rewrite <- M. symmetry. apply firstn_all2.
    rewrite length_skipn. lia.
  - intros [pre ->].
    rewrite length_app.
    replace (length e <=? length pre + length e) with true
      by (symmetry; apply Nat.leb_le; lia).
    replace (length pre + length e - length e) with (length pre) by lia.
    rewrite rfind_from_here.
    + apply Nat.eqb_refl.
    + apply match_at_spec.
      rewrite skipn_app, skipn_all, Nat.sub_diag. simpl.
      apply firstn_all.
Qed.

(** ** The two loops *)

Lemma skip_loop_spec (exts : list c_string) (image_path : std_string) :
  skip_loop exts image_path = true
  <-> exists ext, In ext exts /\ cstr_chars ext = cstr_chars image_path.
Proof.
  induction exts as [|ext rest IH]; simpl.
  - split; [discriminate|]. intros [? [[] _]].
  - unfold c_str.
    destruct ((strlen ext =? strlen image_path)
              && (strncmp ext image_path (strlen ext) =? 0)%Z) eqn:T.
    + split; [|reflexivity]. intros _. exists ext. split; [now left|].
      now apply skip_test_spec.
    + rewrite IH. split.
      * intros [x [Hin Hx]]. exists x. auto.
      * intros [x [[<-|Hin] Hx]].
        -- apply skip_test_spec in Hx. congruence.
        -- exists x. auto.
Qed.

Lemma known_loop_spec (exts : list c_string) (path_low : std_string) :
  known_loop exts path_low = true
  <-> exists ext, In ext exts /\ ends_with path_low (cstr_chars ext).
Proof.
  induction exts as [|ext rest IH]; simpl.
  - split; [discriminate|]. intros [? [[] _]].
  - pose proof (known_test_spec path_low ext) as T.
    destruct (rfind path_low ext) as [pos|].
    + destruct (pos + strlen ext =? length path_low).
      * split; [|reflexivity]. intros _. exists ext. split; [now left|].
        now apply T.
      * rewrite IH. split.
        -- intros [x [Hin Hx]]. exists x. auto.
        -- intros [x [[<-|Hin] Hx]].
           ++ apply T in Hx. discriminate.
           ++ exists x. auto.
    + rewrite IH. split.
      * intros [x [Hin Hx]]. exists x. auto.
      * intros [x [[<-|Hin] Hx]].
        -- apply T in Hx. discriminate.
        -- exists x. auto.
Qed.

(** ** The listing of the supported extensions *)

Lemma join_comma_cons (e : std_string) (rest : list std_string) :
  rest <> [] -> join_comma (e :: rest) = e ++ lit ", " ++ join_comma rest.
Proof. destruct rest; [congruence|reflexivity]. Qed.

Lemma skipn_nth_cons (A : Type) (d : A) (l : list A) (i : nat) :
  i < length l -> skipn i l = nth i l d :: skipn (S i) l.
Proof.
  revert i. induction l as [|x l IH]; intros i H; simpl in H; [lia|].
  destruct i as [|i]; [reflexivity|].
  simpl. apply IH. lia.
Qed.

(** Loop invariant: with [todo] indices left from [i], the loop appends the
    joined rest of the table. *)
Lemma ListSupportedExtensions_loop_spec
    (known : list c_string) (todo i : nat) (ss : ostream) :
  i + todo = length known ->
  ListSupportedExtensions_loop known (length known) todo i ss
  = ss ++ join_comma (map cstr_chars (skipn i known)).
Proof.
  revert i ss. induction todo as [|todo IH]; intros i ss H.
  - simpl. rewrite skipn_all2 by lia. simpl. now rewrite app_nil_r.
  - cbn [ListSupportedExtensions_loop].
    rewrite (@skipn_nth_cons c_string [] known i) by lia.
    rewrite IH by lia. cbn [map].
    destruct (i =? length known - 1) eqn:E; cbn [negb].
    + apply Nat.eqb_eq in E.
      rewrite skipn_all2 by lia. simpl. now rewrite app_nil_r.
    + apply Nat.eqb_neq in E.
      rewrite join_comma_cons.
      * now rewrite <- !app_assoc.
      * intros N. apply (f_equal (@length _)) in N.
        rewrite length_map, length_skipn in N. simpl in N. lia.
Qed.

Lemma ListSupportedExtensions_join (known : list c_string) :
  ListSupportedExtensions known = join_comma (map cstr_chars known).
Proof.
  unfold ListSupportedExtensions.
  now rewrite ListSupportedExtensions_loop_spec.
Qed.

(** One step of the splitter on a text of two bytes or more. *)
Lemma split_comma_from_step (cur : std_string) (c d : ascii) (s : std_string) :
  split_comma_from cur (c :: d :: s)
  = if Ascii.eqb c ","%char && Ascii.eqb d " "%char
    then cur :: split_comma_from [] s
    else split_comma_from (cur ++ [c]) (d :: s).
Proof. reflexivity. Qed.

Lemma has_separator_tail (c : ascii) (t : std_string) :
  ~ has_separator (c :: t) -> ~ has_separator t.
Proof.
  intros H [a [b ->]]. apply H. exists (c :: a), b. reflexivity.
Qed.

Lemma has_separator_head (c d : ascii) (t : std_string) :
  ~ has_separator (c :: d :: t) ->
  Ascii.eqb c ","%char && Ascii.eqb d " "%char = false.
Proof.
  intros H. destruct (Ascii.eqb c "," && Ascii.eqb d " ") eqn:E; [|reflexivity].
  exfalso. apply andb_true_iff in E. destruct E as [E1 E2].
  apply Ascii.eqb_eq in E1, E2. subst c d.
  apply H. exists [], t. reflexivity.
Qed.

(** A field without [", "] followed by the separator is split off whole. *)
Lemma split_comma_from_field (e cur rest : std_string) :
  ~ has_separator e ->
  split_comma_from cur (e ++ lit ", " ++ rest)
  = (cur ++ e) :: split_comma_from [] rest.
Proof.
  revert cur. induction e as [|c t IH]; intros cur H.
  - change ([] ++ lit ", " ++ rest) with (","%char :: " "%char :: rest).
    rewrite split_comma_from_step. simpl. now rewrite app_nil_r.
  - pose proof (has_separator_tail H) as Ht.
    destruct t as [|d t'].
    + change ([c] ++ lit ", " ++ rest)
        with (c :: ","%char :: " "%char :: rest).
      rewrite split_comma_from_step.
      replace (Ascii.eqb c "," && Ascii.eqb "," " ") with false
        by (symmetry; apply andb_false_r).
      rewrite split_comma_from_step. reflexivity.
    + change ((c :: d :: t') ++ lit ", " ++ rest)
        with (c :: d :: (t' ++ lit ", " ++ rest)).
      rewrite split_comma_from_step, (has_separator_head H).
      change (d :: (t' ++ lit ", " ++ rest))
        with ((d :: t') ++ lit ", " ++ rest).
      rewrite (IH (cur ++ [c]) Ht). now rewrite <- app_assoc.
Qed.

(** The last field is returned as it is. *)
Lemma split_comma_from_last (e cur : std_string) :
  ~ has_separator e -> split_comma_from cur e = [cur ++ e].
Proof.
  revert cur. induction e as [|c t IH]; intros cur H.
  - simpl. now rewrite app_nil_r.
  - pose proof (has_separator_tail H) as Ht.
    destruct t as [|d t'].
    + reflexivity.
    + rewrite split_comma_from_step, (has_separator_head H).
      rewrite (IH (cur ++ [c]) Ht). now rewrite <- app_assoc.
Qed.

Lemma split_join_comma (l : list std_string) :
  l <> [] ->
  (forall e, In e l -> ~ has_separator e) ->
  split_comma (join_comma l) = l.
Proof.
  unfold split_comma. induction l as [|e rest IH]; intros Hne Hsep; [congruence|].
  destruct rest as [|e' rest'].
  - simpl. rewrite split_comma_from_last; [reflexivity|]. apply Hsep. now left.
  - rewrite join_comma_cons by discriminate.
    rewrite split_comma_from_field by (apply Hsep; now left).
    simpl app. f_equal. apply IH; [discriminate|].
    intros x Hx. apply Hsep. now right.
Qed.

(** ** [HasKnownImageExtension] *)

Lemma HasKnownImageExtension_skip
    (known skip : list c_string) (path : std_string) (cerr : ostream) :
  skip_match skip path ->
  HasKnownImageExtension known skip path cerr = (false, cerr).
Proof.
  intros H. apply (skip_loop_spec skip path) in H.
  unfold HasKnownImageExtension. now rewrite H.
Qed.

Lemma skip_loop_false (skip : list c_string) (path : std_string) :
  ~ skip_match skip path -> skip_loop skip path = false.
Proof.
  intros H. destruct (skip_loop skip path) eqn:E; [|reflexivity].
  exfalso. apply H. now apply (skip_loop_spec skip path).
Qed.

Lemma known_loop_false (known : list c_string) (path : std_string) :
  ~ known_match known path -> known_loop known (map tolower path) = false.
Proof.
  intros H. destruct (known_loop known (map tolower path)) eqn:E; [|reflexivity].
  exfalso. apply H. now apply known_loop_spec.
Qed.

Lemma HasKnownImageExtension_known
    (known skip : list c_string) (path : std_string) (cerr : ostream) :
  ~ skip_match skip path ->
  known_match known path ->
  HasKnownImageExtension known skip path cerr = (true, cerr).
Proof.
  intros Hs Hk. apply known_loop_spec in Hk.
  unfold HasKnownImageExtension.
  now rewrite (skip_loop_false Hs), Hk.
Qed.

Lemma HasKnownImageExtension_unknown
    (known skip : list c_string) (path : std_string) (cerr : ostream) :
  ~ skip_match skip path ->
  ~ known_match known path ->
  HasKnownImageExtension known skip path cerr
  = (false, cerr ++ warning_text known path ++ endl).
Proof.
  intros Hs Hk. unfold HasKnownImageExtension.
  now rewrite (skip_loop_false Hs), (known_loop_false Hk).
Qed.

(** A path that is an entry of the skip table, byte for byte. *)
Lemma exact_entry_skip_match (skip : list c_string) (path : std_string) :
  In path (map cstr_chars skip) -> skip_match skip path.
Proof.
  intros H. apply in_map_iff in H. destruct H as [ext [<- Hin]].
  exists ext. split; [assumption|].
  unfold c_str. now rewrite cstr_chars_idem.
Qed.

(** For a path without NUL the C-string match is the exact match. *)
Lemma skip_match_exact (skip : list c_string) (path : std_string) :
  ~ In NUL path ->
  (skip_match skip path <-> In path (map cstr_chars skip)).
Proof.
  intros Hn. split; [|apply exact_entry_skip_match].
  intros [ext [Hin E]]. unfold c_str in E. rewrite (cstr_chars_id path Hn) in E.
  apply in_map_iff. now exists ext.
Qed.

(** ** The line feeds of the warning *)

Lemma line_feeds_app (a b : std_string) :
  line_feeds (a ++ b) = line_feeds a + line_feeds b.
Proof. apply count_occ_app. Qed.

Lemma line_feeds_none (a : std_string) : ~ In LF a -> line_feeds a = 0.
Proof. intros H. now apply count_occ_not_In. Qed.

Lemma line_feeds_join (l : list std_string) :
  (forall e, In e l -> ~ In LF e) -> line_feeds (join_comma l) = 0.
Proof.
  induction l as [|e rest IH]; intros H; [reflexivity|].
  destruct rest as [|e' rest'].
  - simpl. apply line_feeds_none, H. now left.
  - rewrite join_comma_cons by discriminate.
    rewrite !line_feeds_app, IH, (line_feeds_none e (H e (or_introl eq_refl))).
    + reflexivity.
    + intros x Hx. apply H. now right.
Qed.

Lemma warning_one_line (known : list c_string) (path : std_string) :
  ~ In LF path ->
  (forall ext, In ext known -> ~ In LF (cstr_chars ext)) ->
  line_feeds (warning_text known path ++ endl) = 1.
Proof.
  intros Hp Hk. unfold warning_text.
  rewrite ListSupportedExtensions_join.
  rewrite !line_feeds_app, (line_feeds_none path Hp), line_feeds_join.
  - reflexivity.
  - intros e He. apply in_map_iff in He. destruct He as [ext [<- Hin]].
    now apply Hk.
Qed.

Lemma join_comma_snoc (l : list std_string) (x : std_string) :
  ends_with (join_comma (l ++ [x])) x.
Proof.
  induction l as [|e rest IH].
  - now exists [].
  - change ((e :: rest) ++ [x]) with (e :: (rest ++ [x])).
    rewrite join_comma_cons by (destruct rest; discriminate).
    destruct IH as [pre ->]. exists (e ++ lit ", " ++ pre).
    now rewrite <- !app_assoc.
Qed.

(** ** The claims on the classifier *)

(** C1, as the code has it: a path whose lower-cased form ends with an
    entry of the known table, and which, read as a C string (its bytes
    before the first NUL), is no entry of the skip table, is accepted:
    [HasKnownImageExtension] returns [true] and writes nothing. *)
Theorem known_extension_accepted
    (known skip : list c_string) (path : std_string) (cerr : ostream) :
  known_match known path ->
  ~ skip_match skip path ->
  HasKnownImageExtension known skip path cerr = (true, cerr).
Proof.
  intros Hk Hs. unfold HasKnownImageExtension.
  rewrite (skip_loop_false Hs).
  apply known_loop_spec in Hk.
  now rewrite Hk.
Qed.

Lemma known_extension_accepted_witness :
  known_match sample_known (lit "photo.JPG")
  /\ ~ skip_match sample_skip (lit "photo.JPG")
  /\ HasKnownImageExtension sample_known sample_skip (lit "photo.JPG") []
     = (true, []).
Proof.
  assert (Hk : known_match sample_known (lit "photo.JPG")).
  { exists (lit "jpg"). split; [vm_compute; tauto|].
    exists (lit "photo."). reflexivity. }
  assert (Hs : ~ skip_match sample_skip (lit "photo.JPG")).
  { intros H. apply (skip_loop_spec sample_skip (lit "photo.JPG")) in H.
    vm_compute in H. discriminate H. }
  split; [exact Hk|]. split; [exact Hs|].
  exact (@known_extension_accepted sample_known sample_skip
           (lit "photo.JPG") [] Hk Hs).
Defined.

(** The spec's scenario: ["photo.JPG"] is accepted as soon as the known
    table holds ["jpg"] and the name is not in the skip table. *)
Corollary photo_JPG_accepted
    (known skip : list c_string) (cerr : ostream) :
  In (lit "jpg") known ->
  ~ In (lit "photo.JPG") (map cstr_chars skip) ->
  HasKnownImageExtension known skip (lit "photo.JPG") cerr = (true, cerr).
Proof.
  intros Hk Hs. apply HasKnownImageExtension_known.
  - intros H. apply Hs. apply skip_match_exact; [|assumption].
    vm_compute. intros [H'|[H'|[H'|[H'|[H'|[H'|[H'|[H'|[H'|[]]]]]]]]]];
      discriminate H'.
  - exists (lit "jpg"). split; [assumption|].
    exists (lit "photo."). reflexivity.
Qed.

(** C1 as it is written fails: with an embedded NUL the path is no exact
    copy of a skip entry and ends with a known extension, yet the skip
    loop, which reads the path as a C string, rejects it. *)
Lemma known_extension_exact_skip_counterexample :
  let path := lit "thumbs.db" ++ NUL :: lit "x.jpg" in
  known_match sample_known path
  /\ ~ In path (map cstr_chars sample_skip)
  /\ HasKnownImageExtension sample_known sample_skip path [] = (false, []).
Proof.
  split; [|split].
  - exists (lit ".jpg"). split; [vm_compute; tauto|].
    exists (lit "thumbs.db" ++ NUL :: lit "x"). reflexivity.
  - vm_compute. intros [H|[H|[]]]; discriminate H.
  - reflexivity.
Qed.

(** C2: a path equal, byte for byte, to the string of a skip-table entry
    is rejected without a diagnostic, whatever the known table holds: the
    skip loop runs first. *)
Theorem skip_entry_rejected_silently
    (known skip : list c_string) (path : std_string) (cerr : ostream) :
  In path (map cstr_chars skip) ->
  HasKnownImageExtension known skip path cerr = (false, cerr).
Proof.
  intros H. apply HasKnownImageExtension_skip.
  now apply exact_entry_skip_match.
Qed.

Lemma skip_entry_rejected_silently_witness :
  In (lit "cover.jpg") (map cstr_chars sample_skip)
  /\ known_match sample_known (lit "cover.jpg")
  /\ HasKnownImageExtension sample_known sample_skip (lit "cover.jpg") []
     = (false, []).
Proof.
  assert (H : In (lit "cover.jpg") (map cstr_chars sample_skip)).
  { vm_compute. tauto. }
  split; [exact H|]. split.
  - exists (lit ".jpg"). split; [vm_compute; tauto|].
    exists (lit "cover"). reflexivity.
  - exact (@skip_entry_rejected_silently sample_known sample_skip
             (lit "cover.jpg") [] H).
Defined.

(** C3, as the code has it: when the path, read as a C string, is no
    skip entry and its lower-cased form ends with no known entry, the
    result is [false] and one diagnostic is written: the fixed text with
    the path verbatim and the known entries joined by [", "] in table
    order, then one end of line (a single line when neither the path nor
    an entry holds a line feed).  In every other case nothing is
    written. *)
Theorem unknown_extension_warns_once
    (known skip : list c_string) (path : std_string) (cerr : ostream) :
  (~ skip_match skip path ->
   ~ known_match known path ->
   HasKnownImageExtension known skip path cerr
   = (false,
      cerr ++
      (lit "[Warning]: File " ++ path ++
       lit " has extension that is not supproted by the decoder. " ++
       lit "Supported extensions: " ++
       join_comma (map cstr_chars known) ++ lit ".") ++ [LF])
   /\ (~ In LF path ->
       (forall ext, In ext known -> ~ In LF (cstr_chars ext)) ->
       line_feeds (snd (HasKnownImageExtension known skip path [])) = 1))
  /\ (skip_match skip path \/ known_match known path ->
      snd (HasKnownImageExtension known skip path cerr) = cerr).
Proof.
  split.
  - intros Hs Hk. rewrite !HasKnownImageExtension_unknown by assumption.
    split.
    + unfold warning_text, endl. now rewrite ListSupportedExtensions_join.
    + intros Hp Hl. cbn [snd app]. now apply warning_one_line.
  - intros [Hs|Hk].
    + now rewrite HasKnownImageExtension_skip.
    + unfold HasKnownImageExtension.
      destruct (skip_loop skip path); [reflexivity|].
      apply known_loop_spec in Hk. now rewrite Hk.
Qed.

Lemma unknown_extension_warns_once_witness :
  ~ skip_match sample_skip (lit "readme.txt")
  /\ ~ known_match sample_known (lit "readme.txt")
  /\ HasKnownImageExtension sample_known sample_skip (lit "readme.txt") []
     = (false,
        lit "[Warning]: File readme.txt has extension that is not supproted by the decoder. Supported extensions: .jpg, .jpeg, .png, .bmp, jpg."
        ++ [LF]).
Proof.
  assert (Hs : ~ skip_match sample_skip (lit "readme.txt")).
  { intros H. apply (skip_loop_spec sample_skip (lit "readme.txt")) in H.
    vm_compute in H. discriminate H. }
  assert (Hk : ~ known_match sample_known (lit "readme.txt")).
  { intros H.
    apply (known_loop_spec sample_known (map tolower (lit "readme.txt"))) in H.
    vm_compute in H. discriminate H. }
  split; [exact Hs|]. split; [exact Hk|].
  exact (proj1 (proj1 (@unknown_extension_warns_once sample_known sample_skip
                         (lit "readme.txt") []) Hs Hk)).
Defined.

(** C3 as it is written fails: this path is no exact copy of a skip entry
    and ends with no known extension, yet no diagnostic is written, since
    its bytes before the NUL are a skip entry. *)
Lemma unknown_extension_exact_skip_counterexample :
  let path := lit "thumbs.db" ++ NUL :: lit ".xyz" in
  ~ In path (map cstr_chars sample_skip)
  /\ ~ known_match sample_known path
  /\ HasKnownImageExtension sample_known sample_skip path [] = (false, []).
Proof.
  split; [|split].
  - vm_compute. intros [H|[H|[]]]; discriminate H.
  - intros H.
    apply (known_loop_spec sample_known
             (map tolower (lit "thumbs.db" ++ NUL :: lit ".xyz"))) in H.
    vm_compute in H. discriminate H.
  - reflexivity.
Qed.

(** C4: [ListSupportedExtensions] is the known entries in table order,
    joined by [", "], ending with the last entry; for a table that is not
    empty and whose entries hold no [", "], splitting the result on
    [", "] gives back the table. *)
Theorem ListSupportedExtensions_split (known : list c_string) :
  ListSupportedExtensions known = join_comma (map cstr_chars known)
  /\ (forall init last, known = init ++ [last] ->
      ends_with (ListSupportedExtensions known) (cstr_chars last))
  /\ (known <> [] ->
      (forall ext, In ext known -> ~ has_separator (cstr_chars ext)) ->
      split_comma (ListSupportedExtensions known) = map cstr_chars known).
Proof.
  rewrite ListSupportedExtensions_join. split; [reflexivity|]. split.
  - intros init last ->. rewrite map_app. apply join_comma_snoc.
  - intros Hne Hsep. apply split_join_comma.
    + destruct known; [congruence|discriminate].
    + intros e He. apply in_map_iff in He. destruct He as [ext [<- Hin]].
      now apply Hsep.
Qed.

(** An entry without a comma holds no separator. *)
Lemma no_comma_no_separator (e : std_string) :
  ~ In ","%char e -> ~ has_separator e.
Proof.
  intros H [a [b ->]]. apply H.
  apply in_or_app. right. now left.
Qed.

Lemma sample_known_no_separator (ext : c_string) :
  In ext sample_known -> ~ has_separator (cstr_chars ext).
Proof.
  intros H. apply no_comma_no_separator.
  repeat (destruct H as [<-|H];
          [vm_compute; intuition discriminate|]).
  destruct H.
Qed.

Lemma ListSupportedExtensions_split_witness :
  sample_known <> []
  /\ (forall ext, In ext sample_known -> ~ has_separator (cstr_chars ext))
  /\ split_comma (ListSupportedExtensions sample_known)
     = [lit ".jpg"; lit ".jpeg"; lit ".png"; lit ".bmp"; lit "jpg"].
Proof.
  assert (Hne : sample_known <> []) by discriminate.
  split; [exact Hne|]. split; [exact sample_known_no_separator|].
  exact (proj2 (proj2 (ListSupportedExtensions_split sample_known))
           Hne sample_known_no_separator).
Defined.

(** C9: the skip loop reads the path as a C string.  Its verdict is the
    verdict on the bytes before the first NUL; so a skip entry followed by
    a NUL and any further bytes is rejected without a diagnostic, although
    that path is not the entry byte for byte. *)
Theorem skip_match_stops_at_NUL
    (known skip : list c_string) (ext : c_string) (rest : std_string)
    (cerr : ostream) :
  In ext skip ->
  (forall p, skip_loop skip p = skip_loop skip (cstr_chars (c_str p)))
  /\ let path := cstr_chars ext ++ NUL :: rest in
     cstr_chars (c_str path) = cstr_chars ext
     /\ path <> cstr_chars ext
     /\ HasKnownImageExtension known skip path cerr = (false, cerr).
Proof.
  intros Hin. split.
  - intros p. unfold c_str.
    destruct (skip_loop skip p) eqn:E1;
      destruct (skip_loop skip (cstr_chars p)) eqn:E2; try reflexivity.
    + apply skip_loop_spec in E1. destruct E1 as [x [Hx E]].
      rewrite <- (cstr_chars_idem p) in E.
      assert (skip_loop skip (cstr_chars p) = true)
        by (apply skip_loop_spec; now exists x).
      congruence.
    + apply skip_loop_spec in E2. destruct E2 as [x [Hx E]].
      rewrite cstr_chars_idem in E.
      assert (skip_loop skip p = true)
        by (apply skip_loop_spec; now exists x).
      congruence.
  - intros path.
    assert (E : cstr_chars (c_str path) = cstr_chars ext).
    { unfold path, c_str. apply cstr_chars_at_nul, cstr_chars_no_nul. }
    split; [exact E|split].
    + unfold path. intros H. apply (f_equal (@length _)) in H.
      rewrite length_app in H. simpl in H. lia.
    + apply HasKnownImageExtension_skip. now exists ext.
Qed.

Lemma skip_match_stops_at_NUL_witness :
  In (lit "thumbs.db") sample_skip
  /\ HasKnownImageExtension sample_known sample_skip
       (lit "thumbs.db" ++ NUL :: lit "x.jpg") []
     = (false, []).
Proof.
  assert (H : In (lit "thumbs.db") sample_skip) by (vm_compute; tauto).
  split; [exact H|].
  exact (proj2 (proj2 (proj2
    (@skip_match_stops_at_NUL sample_known sample_skip (lit "thumbs.db")
       (lit "x.jpg") [] H)))).
Defined.

(** ** The [Image] life cycle *)

Section ImageProperties.

Variables DALIImageType Shape ImplError : Type.
Variable DecodeImpl :
  DALIImageType -> bytes -> N -> outcome ImplError (shared_ptr bytes * Shape).
Variable PeekShapeImpl : bytes -> N -> outcome ImplError Shape.
Variable shape_init : Shape.

Local Abbreviation Img := (Image DALIImageType Shape).
Local Abbreviation decode := (Decode DecodeImpl).
Local Abbreviation decode_impl_of := (decode_impl_of DecodeImpl).
Local Abbreviation get_image := (@GetImage DALIImageType Shape ImplError).
Local Abbreviation get_shape := (@GetShape DALIImageType Shape ImplError).
Local Abbreviation peek_shape := (@PeekShape DALIImageType Shape ImplError PeekShapeImpl).
Local Abbreviation already_decoded :=
  (InvalidState (ImplError := ImplError)
     "Called decode for already decoded image").
Local Abbreviation not_decoded :=
  (InvalidState (ImplError := ImplError) "Image not decoded. Run Decode()").

Ltac run := unfold Decode, GetImage, GetShape, PeekShape, bind, load,
              DALI_ENFORCE, call, store_decoded_image_, store_shape_,
              store_decoded_; cbn [fst snd negb].

Lemma Decode_decoded (img : Img) :
  decoded_ img = true -> decode img = (Raises already_decoded, img).
Proof. intros D. run. now rewrite D. Qed.

Lemma Decode_pending_ok (img : Img) b s :
  decoded_ img = false ->
  decode_impl_of img = Returns (b, s) ->
  decode img = (Returns tt, decoded_with img b s).
Proof.
  unfold decode_impl_of. intros D R. run. rewrite D. cbn [negb].
  now rewrite R.
Qed.

Lemma Decode_pending_raises (img : Img) e :
  decoded_ img = false ->
  decode_impl_of img = Raises e ->
  decode img = (Raises (ExtensionError e), img).
Proof.
  unfold decode_impl_of. intros D R. run. rewrite D. cbn [negb].
  now rewrite R.
Qed.

(** A [Decode] that returned started pending, on a payload that the
    extension point decoded. *)
Lemma Decode_returned (img img1 : Img) :
  decode img = (Returns tt, img1) ->
  decoded_ img = false
  /\ exists b s, decode_impl_of img = Returns (b, s)
                 /\ img1 = decoded_with img b s.
Proof.
  intros H. destruct (decoded_ img) eqn:D.
  - rewrite Decode_decoded in H by assumption. discriminate H.
  - split; [reflexivity|].
    destruct (decode_impl_of img) as [[b s]|e] eqn:R.
    + rewrite (Decode_pending_ok D R) in H.
      exists b, s. split; [reflexivity|]. congruence.
    + rewrite (Decode_pending_raises D R) in H. discriminate H.
Qed.

Lemma GetImage_decoded (img : Img) :
  decoded_ img = true -> get_image img = (Returns (decoded_image_ img), img).
Proof. intros D. run. now rewrite D. Qed.

Lemma GetImage_pending (img : Img) :
  decoded_ img = false -> get_image img = (Raises not_decoded, img).
Proof. intros D. run. now rewrite D. Qed.

Lemma GetShape_decoded (img : Img) :
  decoded_ img = true -> get_shape img = (Returns (shape_ img), img).
Proof. intros D. run. now rewrite D. Qed.

Lemma GetShape_pending (img : Img) :
  decoded_ img = false -> get_shape img = (Raises not_decoded, img).
Proof. intros D. run. now rewrite D. Qed.

Lemma PeekShape_spec (img : Img) :
  peek_shape img
  = (match PeekShapeImpl (encoded_image_ img) (length_ img) with
     | Returns s => Returns s
     | Raises e => Raises (ExtensionError e)
     end, img).
Proof.
  run. now destruct (PeekShapeImpl (encoded_image_ img) (length_ img)).
Qed.

(** Once decoded, no operation changes the object. *)
Lemma after_decoded (op : operation) (img : Img) :
  decoded_ img = true -> after DecodeImpl PeekShapeImpl op img = img.
Proof.
  intros D. destruct op; unfold after.
  - now rewrite Decode_decoded.
  - now rewrite GetImage_decoded.
  - now rewrite PeekShape_spec.
  - now rewrite GetShape_decoded.
Qed.

Lemma after_all_decoded (ops : list operation) (img : Img) :
  decoded_ img = true -> after_all DecodeImpl PeekShapeImpl ops img = img.
Proof.
  intros D. unfold after_all. induction ops as [|op ops IH]; [reflexivity|].
  cbn [fold_left]. now rewrite after_decoded.
Qed.

(** ** The claims on [Image] *)

(** C5: after a [Decode] that returned, and after any further calls, a
    call of [Decode] throws the invalid-state error and leaves every
    field as it was: the buffer and the shape are still those the first
    call got from the extension point. *)
Theorem Decode_twice_fails
    (img img1 : Img) (ops : list operation) :
  decode img = (Returns tt, img1) ->
  let img2 := after_all DecodeImpl PeekShapeImpl ops img1 in
  decode img2 = (Raises already_decoded, img2)
  /\ img2 = img1
  /\ exists b s, decode_impl_of img = Returns (b, s)
                 /\ decoded_image_ img2 = b /\ shape_ img2 = s.
Proof.
  intros H img2. apply Decode_returned in H.
  destruct H as [_ [b [s [R ->]]]].
  assert (E : img2 = decoded_with img b s)
    by (apply after_all_decoded; reflexivity).
  rewrite E. split; [|split].
  - now apply Decode_decoded.
  - reflexivity.
  - exists b, s. auto.
Qed.

(** C6: on a freshly constructed object [GetImage] and [GetShape] throw
    the invalid-state error and change nothing; once [Decode] has
    returned they return the buffer and the shape that the extension
    point produced in that call. *)
Theorem getters_need_Decode
    (encoded_buffer : bytes) (length : N) (image_type : DALIImageType) :
  let img := Image_ctor shape_init encoded_buffer length image_type in
  get_image img = (Raises not_decoded, img)
  /\ get_shape img = (Raises not_decoded, img)
  /\ forall b s,
       DecodeImpl image_type encoded_buffer length = Returns (b, s) ->
       let img1 := snd (decode img) in
       fst (decode img) = Returns tt
       /\ get_image img1 = (Returns b, img1)
       /\ get_shape img1 = (Returns s, img1).
Proof.
  intros img. split; [|split].
  - now apply GetImage_pending.
  - now apply GetShape_pending.
  - intros b s R img1.
    assert (E : decode img = (Returns tt, decoded_with img b s))
      by now apply Decode_pending_ok.
    unfold img1. rewrite E. cbn [fst snd]. split; [reflexivity|]. split.
    + now rewrite GetImage_decoded.
    + now rewrite GetShape_decoded.
Qed.

(** C7: when the header parser agrees with the decoder on the shape of
    the payload, [PeekShape] on a fresh object returns that shape, and
    so does [GetShape] after the [Decode] that follows. *)
Theorem PeekShape_agrees_with_GetShape
    (encoded_buffer : bytes) (length : N) (image_type : DALIImageType)
    (b : shared_ptr bytes) (s : Shape) :
  DecodeImpl image_type encoded_buffer length = Returns (b, s) ->
  PeekShapeImpl encoded_buffer length = Returns s ->
  let img := Image_ctor shape_init encoded_buffer length image_type in
  let img1 := snd (peek_shape img) in
  let img2 := snd (decode img1) in
  fst (peek_shape img) = Returns s
  /\ fst (decode img1) = Returns tt
  /\ fst (get_shape img2) = Returns s
  /\ fst (get_shape img2) = fst (peek_shape img).
Proof.
  intros RD RP img img1 img2.
  assert (EP : peek_shape img = (Returns s, img)).
  { rewrite PeekShape_spec. cbn [encoded_image_ length_ img Image_ctor].
    now rewrite RP. }
  assert (ED : decode img = (Returns tt, decoded_with img b s))
    by now apply Decode_pending_ok.
  unfold img2, img1. rewrite EP. cbn [fst snd]. rewrite ED. cbn [fst snd].
  rewrite GetShape_decoded by reflexivity. auto.
Qed.

(** C8: [PeekShape] checks no state: in either state its outcome is the
    outcome of the header parser on the encoded view, so it returns
    whenever the parser does and never throws the invalid-state error;
    and all six fields are left as they were. *)
Theorem PeekShape_any_state (img : Img) :
  let img' := snd (peek_shape img) in
  fst (peek_shape img)
  = match PeekShapeImpl (encoded_image_ img) (length_ img) with
    | Returns s => Returns s
    | Raises e => Raises (ExtensionError e)
    end
  /\ (forall s,
        PeekShapeImpl (encoded_image_ img) (length_ img) = Returns s ->
        peek_shape img = (Returns s, img))
  /\ is_invalid_state (fst (peek_shape img)) = false
  /\ img' = img
  /\ decoded_ img' = decoded_ img
  /\ decoded_image_ img' = decoded_image_ img
  /\ shape_ img' = shape_ img
  /\ encoded_image_ img' = encoded_image_ img
  /\ length_ img' = length_ img
  /\ image_type_ img' = image_type_ img.
Proof.
  intros img'. unfold img'. rewrite PeekShape_spec. cbn [fst snd].
  split; [reflexivity|]. split; [|split; [|repeat split]].
  - intros s R. now rewrite R.
  - now destruct (PeekShapeImpl (encoded_image_ img) (length_ img)).
Qed.

(** C10: when the extension point throws, [Decode] on a pending object
    passes the exception on and has written no field: the object is
    still pending, and the guard of a later [Decode] lets it through. *)
Theorem Decode_failure_atomic (img : Img) (e : ImplError) :
  decoded_ img = false ->
  decode_impl_of img = Raises e ->
  let img' := snd (decode img) in
  decode img = (Raises (ExtensionError e), img)
  /\ img' = img
  /\ decoded_ img' = false
  /\ decoded_image_ img' = decoded_image_ img
  /\ shape_ img' = shape_ img
  /\ is_invalid_state (fst (decode img')) = false.
Proof.
  intros D R img'. unfold img'.
  rewrite (Decode_pending_raises D R). cbn [snd].
  rewrite (Decode_pending_raises D R). cbn [fst].
  repeat split; assumption.
Qed.

End ImageProperties.

(** ** The claims on [Image], at the toy format *)

Example sample_Decode :
  Decode sample_DecodeImpl sample_image
  = (Returns tt,
     mkImage sample_buffer 4 sample_RGB true
       (Some [Byte.xff; Byte.x00]) [2%N; 1%N; 1%N]).
Proof. reflexivity. Qed.

Example sample_PeekShape :
  PeekShape sample_PeekShapeImpl sample_image
  = (Returns [2%N; 1%N; 1%N], sample_image).
Proof. reflexivity. Qed.

Example sample_broken_Decode :
  Decode sample_DecodeImpl sample_broken_image
  = (Raises (ExtensionError "bad body"%string), sample_broken_image).
Proof. reflexivity. Qed.

Lemma Decode_twice_fails_witness :
  let img1 := snd (Decode sample_DecodeImpl sample_image) in
  let img2 :=
    after_all sample_DecodeImpl sample_PeekShapeImpl
      [OpPeekShape; OpDecode; OpGetImage] img1 in
  Decode sample_DecodeImpl sample_image = (Returns tt, img1)
  /\ Decode sample_DecodeImpl img2
     = (Raises (InvalidState "Called decode for already decoded image"), img2)
  /\ img2 = img1.
Proof.
  intros img1 img2.
  assert (H : Decode sample_DecodeImpl sample_image = (Returns tt, img1))
    by reflexivity.
  split; [exact H|].
  pose proof (@Decode_twice_fails _ _ _ sample_DecodeImpl sample_PeekShapeImpl
                sample_image img1 [OpPeekShape; OpDecode; OpGetImage] H) as W.
  split; [exact (proj1 W)|exact (proj1 (proj2 W))].
Defined.

Lemma getters_need_Decode_witness :
  sample_DecodeImpl sample_RGB sample_buffer 4
  = Returns (Some [Byte.xff; Byte.x00], [2%N; 1%N; 1%N])
  /\ let img1 := snd (Decode sample_DecodeImpl sample_image) in
     GetImage string img1 = (Returns (Some [Byte.xff; Byte.x00]), img1)
     /\ GetShape string img1 = (Returns [2%N; 1%N; 1%N], img1).
Proof.
  assert (H : sample_DecodeImpl sample_RGB sample_buffer 4
              = Returns (Some [Byte.xff; Byte.x00], [2%N; 1%N; 1%N]))
    by reflexivity.
  split; [exact H|].
  exact (proj2 (proj2 (proj2
    (@getters_need_Decode _ _ _ sample_DecodeImpl [] sample_buffer 4%N
       sample_RGB)) _ _ H)).
Defined.

Lemma PeekShape_agrees_with_GetShape_witness :
  sample_DecodeImpl sample_RGB sample_buffer 4
  = Returns (Some [Byte.xff; Byte.x00], [2%N; 1%N; 1%N])
  /\ sample_PeekShapeImpl sample_buffer 4 = Returns [2%N; 1%N; 1%N]
  /\ fst (GetShape string (snd (Decode sample_DecodeImpl sample_image)))
     = fst (PeekShape sample_PeekShapeImpl sample_image).
Proof.
  assert (HD : sample_DecodeImpl sample_RGB sample_buffer 4
               = Returns (Some [Byte.xff; Byte.x00], [2%N; 1%N; 1%N]))
    by reflexivity.
  assert (HP : sample_PeekShapeImpl sample_buffer 4
               = Returns [2%N; 1%N; 1%N])
    by reflexivity.
  split; [exact HD|]. split; [exact HP|].
  exact (proj2 (proj2 (proj2
    (@PeekShape_agrees_with_GetShape _ _ _ sample_DecodeImpl
       sample_PeekShapeImpl [] sample_buffer 4%N sample_RGB _ _ HD HP)))).
Defined.

Lemma Decode_failure_atomic_witness :
  decoded_ sample_broken_image = false
  /\ decode_impl_of sample_DecodeImpl sample_broken_image
     = Raises "bad body"%string
  /\ Decode sample_DecodeImpl sample_broken_image
     = (Raises (ExtensionError "bad body"%string), sample_broken_image).
Proof.
  assert (D : decoded_ sample_broken_image = false) by reflexivity.
  assert (R : decode_impl_of sample_DecodeImpl sample_broken_image
              = Raises "bad body"%string) by reflexivity.
  split; [exact D|]. split; [exact R|].
  exact (proj1 (@Decode_failure_atomic _ _ _ sample_DecodeImpl
                  sample_broken_image _ D R)).
Defined.

Lemma PeekShape_any_state_witness :
  let pending := sample_image in
  let decoded := snd (Decode sample_DecodeImpl sample_image) in
  sample_PeekShapeImpl sample_buffer 4 = Returns [2%N; 1%N; 1%N]
  /\ decoded_ pending = false
  /\ PeekShape sample_PeekShapeImpl pending = (Returns [2%N; 1%N; 1%N], pending)
  /\ decoded_ decoded = true
  /\ PeekShape sample_PeekShapeImpl decoded = (Returns [2%N; 1%N; 1%N], decoded).
Proof.
  intros pending decoded.
  assert (R : sample_PeekShapeImpl sample_buffer 4 = Returns [2%N; 1%N; 1%N])
    by reflexivity.
  split; [exact R|]. split; [reflexivity|]. split; [|split; [reflexivity|]].
  - exact (proj1 (proj2
      (@PeekShape_any_state _ _ _ sample_PeekShapeImpl pending)) _ R).
  - exact (proj1 (proj2
      (@PeekShape_any_state _ _ _ sample_PeekShapeImpl decoded)) _ R).
Defined.

(** * Further properties of the classifier *)

Lemma tolower_idem (c : ascii) : tolower (tolower c) = tolower c.
Proof. destruct c as [[] [] [] [] [] [] [] []]; reflexivity. Qed.

Lemma map_tolower_fixed (s : std_string) (c : ascii) :
  In c (map tolower s) -> tolower c = c.
Proof.
  intros H. apply in_map_iff in H. destruct H as [d [<- _]].
  apply tolower_idem.
Qed.

(** The verdict is decided by the two loops alone. *)
Lemma verdict_spec
    (known skip : list c_string) (path : std_string) (cerr : ostream) :
  fst (HasKnownImageExtension known skip path cerr)
  = negb (skip_loop skip path) && known_loop known (map tolower path).
Proof.
  unfold HasKnownImageExtension.
  destruct (skip_loop skip path); [reflexivity|].
  now destruct (known_loop known (map tolower path)).
Qed.

Lemma skip_loop_iff (skip : list c_string) (path : std_string) :
  skip_loop skip path = true <-> skip_match skip path.
Proof. apply (skip_loop_spec skip path). Qed.

Lemma known_loop_iff (known : list c_string) (path : std_string) :
  known_loop known (map tolower path) = true <-> known_match known path.
Proof. apply known_loop_spec. Qed.

(** X1: [HasKnownImageExtension] returns [true] exactly when the path,
    read as a C string, is no skip entry and its lower-cased form ends
    with a known entry. *)
Theorem HasKnownImageExtension_true_iff
    (known skip : list c_string) (path : std_string) (cerr : ostream) :
  fst (HasKnownImageExtension known skip path cerr) = true
  <-> ~ skip_match skip path /\ known_match known path.
Proof.
  rewrite verdict_spec, andb_true_iff, negb_true_iff.
  rewrite <- known_loop_iff, <- skip_loop_iff. split.
  - intros [Hs Hk]. split; [congruence|assumption].
  - intros [Hs Hk]. split; [|assumption].
    destruct (skip_loop skip path); [now elim Hs|reflexivity].
Qed.

(** X2: for a path without a NUL byte the skip table is matched byte for
    byte: the verdict is [true] exactly when the path is no entry of the
    skip table and ends, lower-cased, with a known entry; and nothing is
    written exactly when the path is a skip entry or has a known ending. *)
Theorem NUL_free_path_exact_match
    (known skip : list c_string) (path : std_string) (cerr : ostream) :
  ~ In NUL path ->
  (fst (HasKnownImageExtension known skip path cerr) = true
   <-> ~ In path (map cstr_chars skip) /\ known_match known path)
  /\ (snd (HasKnownImageExtension known skip path cerr) = cerr
      <-> In path (map cstr_chars skip) \/ known_match known path).
Proof.
  intros Hn. pose proof (skip_match_exact skip path Hn) as X. split.
  - rewrite verdict_spec, andb_true_iff, negb_true_iff.
    rewrite <- X, <- known_loop_iff, <- skip_loop_iff. split.
    + intros [Hs Hk]. split; [congruence|assumption].
    + intros [Hs Hk]. split; [|assumption].
      destruct (skip_loop skip path); [now elim Hs|reflexivity].
  - rewrite <- X, <- known_loop_iff, <- skip_loop_iff.
    unfold HasKnownImageExtension.
    destruct (skip_loop skip path); [cbn [snd]; tauto|].
    destruct (known_loop known (map tolower path)); [cbn [snd]; tauto|].
    cbn [snd]. split.
    + intros H. exfalso.
      apply (f_equal (@length _)) in H.
      rewrite !length_app in H. unfold endl in H. simpl in H. lia.
    + intros [H|H]; discriminate H.
Qed.

Lemma NUL_free_path_exact_match_witness :
  ~ In NUL (lit "photo.JPG")
  /\ fst (HasKnownImageExtension sample_known sample_skip
            (lit "photo.JPG") []) = true.
Proof.
  assert (Hn : ~ In NUL (lit "photo.JPG")).
  { vm_compute. intuition discriminate. }
  split; [exact Hn|].
  apply (proj1 (@NUL_free_path_exact_match sample_known sample_skip
                  (lit "photo.JPG") [] Hn)).
  split.
  - vm_compute. intros [H|[H|[]]]; discriminate H.
  - exists (lit "jpg"). split; [vm_compute; tauto|].
    exists (lit "photo."). reflexivity.
Defined.

(** X3: the skip loop leaves through its [return false] exactly when the
    C string of the path is the C string of an entry of the skip table:
    equal [strlen] and a zero [strncmp] over that length is equality. *)
Theorem skip_loop_is_membership (skip : list c_string) (path : std_string) :
  skip_loop skip path = true
  <-> In (cstr_chars (c_str path)) (map cstr_chars skip).
Proof.
  rewrite skip_loop_spec, in_map_iff. unfold c_str.
  split; intros [ext [A B]]; exists ext; auto.
Qed.

(** X4: the known-extension test is blind to case: two paths with the
    same lower-cased form, neither of them a skip entry, get the same
    verdict. *)
Theorem verdict_case_insensitive
    (known skip : list c_string) (p q : std_string) (cerr : ostream) :
  map tolower p = map tolower q ->
  ~ skip_match skip p ->
  ~ skip_match skip q ->
  fst (HasKnownImageExtension known skip p cerr)
  = fst (HasKnownImageExtension known skip q cerr).
Proof.
  intros E Hp Hq. rewrite !verdict_spec, E.
  now rewrite (skip_loop_false Hp), (skip_loop_false Hq).
Qed.

Lemma verdict_case_insensitive_witness :
  map tolower (lit "Photo.JPG") = map tolower (lit "pHOTO.jpg")
  /\ fst (HasKnownImageExtension sample_known sample_skip (lit "Photo.JPG") [])
     = fst (HasKnownImageExtension sample_known sample_skip (lit "pHOTO.jpg") []).
Proof.
  assert (E : map tolower (lit "Photo.JPG") = map tolower (lit "pHOTO.jpg"))
    by reflexivity.
  split; [exact E|].
  apply (@verdict_case_insensitive sample_known sample_skip
           (lit "Photo.JPG") (lit "pHOTO.jpg") [] E).
  - intros H. apply skip_loop_iff in H. vm_compute in H. discriminate H.
  - intros H. apply skip_loop_iff in H. vm_compute in H. discriminate H.
Defined.

(** X5: only the path is lower-cased, the table entries are not: when
    every known entry holds an upper-case ASCII letter, no path at all is
    accepted. *)
Theorem upper_case_entries_never_match
    (known skip : list c_string) (path : std_string) (cerr : ostream) :
  (forall ext, In ext known -> has_upper_case (cstr_chars ext)) ->
  fst (HasKnownImageExtension known skip path cerr) = false.
Proof.
  intros H. rewrite verdict_spec.
  destruct (known_loop known (map tolower path)) eqn:K;
    [|apply andb_false_r].
  exfalso. apply known_loop_spec in K.
  destruct K as [ext [Hin [pre E]]].
  destruct (H ext Hin) as [c [Hc Hup]]. apply Hup.
  apply (map_tolower_fixed path). rewrite E.
  apply in_or_app. now right.
Qed.

Lemma upper_case_entries_never_match_witness :
  (forall ext, In ext [lit ".JPG"] -> has_upper_case (cstr_chars ext))
  /\ fst (HasKnownImageExtension [lit ".JPG"] [] (lit "photo.JPG") []) = false.
Proof.
  assert (H : forall ext, In ext [lit ".JPG"] ->
                          has_upper_case (cstr_chars ext)).
  { intros ext [<-|[]]. exists "J"%char. split; [vm_compute; tauto|].
    vm_compute. discriminate. }
  split; [exact H|].
  exact (@upper_case_entries_never_match [lit ".JPG"] [] (lit "photo.JPG") [] H).
Defined.

(** X6: a path shorter than every known entry is never accepted: [rfind]
    answers [npos] for each entry. *)
Theorem short_path_rejected
    (known skip : list c_string) (path : std_string) (cerr : ostream) :
  (forall ext, In ext known -> length path < strlen ext) ->
  fst (HasKnownImageExtension known skip path cerr) = false.
Proof.
  intros H. rewrite verdict_spec.
  destruct (known_loop known (map tolower path)) eqn:K;
    [|apply andb_false_r].
  exfalso. apply known_loop_spec in K.
  destruct K as [ext [Hin [pre E]]].
  apply (f_equal (@length _)) in E.
  rewrite length_map, length_app, cstr_chars_length in E.
  specialize (H ext Hin). lia.
Qed.

Lemma short_path_rejected_witness :
  (forall ext, In ext sample_known -> length (lit "a") < strlen ext)
  /\ fst (HasKnownImageExtension sample_known sample_skip (lit "a") []) = false.
Proof.
  assert (H : forall ext, In ext sample_known -> length (lit "a") < strlen ext).
  { intros ext Hin.
    repeat (destruct Hin as [<-|Hin]; [vm_compute; lia|]). destruct Hin. }
  split; [exact H|].
  exact (@short_path_rejected sample_known sample_skip (lit "a") [] H).
Defined.

(** X7: an entry of the known table whose C string is empty accepts every
    path that is not skipped: [rfind] of the empty string answers the
    size of the path. *)
Theorem empty_entry_accepts_all
    (known skip : list c_string) (ext : c_string) (path : std_string)
    (cerr : ostream) :
  In ext known ->
  strlen ext = 0 ->
  ~ skip_match skip path ->
  rfind (map tolower path) ext = Some (length path)
  /\ HasKnownImageExtension known skip path cerr = (true, cerr).
Proof.
  intros Hin Z Hs.
  assert (E : cstr_chars ext = []).
  { pose proof (cstr_chars_length ext) as L. rewrite Z in L.
    now destruct (cstr_chars ext). }
  split.
  - unfold rfind. rewrite E. cbn [length Nat.leb].
    rewrite Nat.sub_0_r, length_map.
    apply rfind_from_here, match_at_spec. reflexivity.
  - apply HasKnownImageExtension_known; [assumption|].
    exists ext. split; [assumption|].
    exists (map tolower path). rewrite E. now rewrite app_nil_r.
Qed.

Lemma empty_entry_accepts_all_witness :
  In [NUL; "j"%char] [lit ".png"; [NUL; "j"%char]]
  /\ strlen [NUL; "j"%char] = 0
  /\ ~ skip_match sample_skip (lit "notes.txt")
  /\ HasKnownImageExtension [lit ".png"; [NUL; "j"%char]] sample_skip
       (lit "notes.txt") []
     = (true, []).
Proof.
  assert (Hin : In [NUL; "j"%char] [lit ".png"; [NUL; "j"%char]])
    by (right; left; reflexivity).
  assert (Z : strlen [NUL; "j"%char] = 0) by reflexivity.
  assert (Hs : ~ skip_match sample_skip (lit "notes.txt")).
  { intros H. apply skip_loop_iff in H. vm_compute in H. discriminate H. }
  split; [exact Hin|]. split; [exact Z|]. split; [exact Hs|].
  exact (proj2 (@empty_entry_accepts_all [lit ".png"; [NUL; "j"%char]]
                  sample_skip [NUL; "j"%char] (lit "notes.txt") [] Hin Z Hs)).
Defined.

(** X8: the function only appends to the error stream, and neither its
    verdict nor the text it appends depends on what was written before;
    when it returns [true] it appends nothing. *)
Theorem stream_only_appended
    (known skip : list c_string) (path : std_string) (cerr : ostream) :
  fst (HasKnownImageExtension known skip path cerr)
  = fst (HasKnownImageExtension known skip path [])
  /\ snd (HasKnownImageExtension known skip path cerr)
     = cerr ++ snd (HasKnownImageExtension known skip path [])
  /\ (fst (HasKnownImageExtension known skip path cerr) = true ->
      snd (HasKnownImageExtension known skip path cerr) = cerr).
Proof.
  unfold HasKnownImageExtension.
  destruct (skip_loop skip path);
    [cbn [fst snd]; rewrite app_nil_r; auto|].
  destruct (known_loop known (map tolower path)); cbn [fst snd].
  - rewrite app_nil_r; auto.
  - repeat split. discriminate.
Qed.

Lemma stream_only_appended_witness :
  fst (HasKnownImageExtension sample_known sample_skip (lit "photo.JPG")
         (lit "earlier")) = true
  /\ snd (HasKnownImageExtension sample_known sample_skip (lit "photo.JPG")
            (lit "earlier")) = lit "earlier".
Proof.
  assert (H : fst (HasKnownImageExtension sample_known sample_skip
                     (lit "photo.JPG") (lit "earlier")) = true)
    by reflexivity.
  split; [exact H|].
  exact (proj2 (proj2 (stream_only_appended sample_known sample_skip
                         (lit "photo.JPG") (lit "earlier"))) H).
Defined.

Lemma join_comma_length (l : list std_string) :
  length (join_comma l) = list_sum (map (@length ascii) l) + 2 * (length l - 1).
Proof.
  induction l as [|e rest IH]; [reflexivity|].
  destruct rest as [|e' rest'].
  - simpl. lia.
  - rewrite join_comma_cons by discriminate.
    rewrite !length_app, IH. simpl. lia.
Qed.

(** X9: the listing is as long as the C strings of the table together,
    plus two bytes for each entry but the last; an empty table gives the
    empty string. *)
Theorem ListSupportedExtensions_length (known : list c_string) :
  length (ListSupportedExtensions known)
  = list_sum (map strlen known) + 2 * (length known - 1)
  /\ ListSupportedExtensions [] = [].
Proof.
  split; [|reflexivity].
  rewrite ListSupportedExtensions_join, join_comma_length.
  rewrite length_map, map_map. f_equal. f_equal.
  apply map_ext. intros ext. apply cstr_chars_length.
Qed.

(** Below the start position nothing found means nothing there. *)
Lemma rfind_from_none (s e : std_string) (pos q : nat) :
  rfind_from s e pos = None -> q <= pos -> match_at s q e = false.
Proof.
  induction pos as [|k IH]; simpl.
  - destruct (match_at s 0 e) eqn:M; [discriminate|].
    intros _ Hq. now replace q with 0 by lia.
  - destruct (match_at s (S k) e) eqn:M; [discriminate|].
    intros H Hq. destruct (Nat.eq_dec q (S k)) as [->|Hne]; [assumption|].
    apply IH; [assumption|lia].
Qed.

(** Between the answer and the start position nothing occurs. *)
Lemma rfind_from_last (s e : std_string) (pos p q : nat) :
  rfind_from s e pos = Some p -> p < q -> q <= pos -> match_at s q e = false.
Proof.
  induction pos as [|k IH]; simpl.
  - intros _ Hp Hq. lia.
  - destruct (match_at s (S k) e) eqn:M.
    + intros H. injection H as <-. intros Hp Hq. lia.
    + intros H Hp Hq. destruct (Nat.eq_dec q (S k)) as [->|Hne]; [assumption|].
      apply IH; [assumption|assumption|lia].
Qed.

(** X10: [rfind], as the known loop uses it, answers the last occurrence
    of the entry's C string in the path: the string occurs at the answer
    and at no later position; [npos] means it occurs nowhere. *)
Theorem rfind_last_occurrence (s : std_string) (ext : c_string) :
  match rfind s ext with
  | Some p =>
      occurs_at s p (cstr_chars ext)
      /\ forall q, p < q -> ~ occurs_at s q (cstr_chars ext)
  | None => forall q, ~ occurs_at s q (cstr_chars ext)
  end.
Proof.
  unfold rfind, occurs_at. set (e := cstr_chars ext).
  destruct (length e <=? length s) eqn:L.
  - apply Nat.leb_le in L.
    destruct (rfind_from s e (length s - length e)) as [p|] eqn:R.
    + pose proof (@rfind_from_found s e _ p R) as [Hp M].
      apply match_at_spec in M. split; [split; [lia|assumption]|].
      intros q Hq [Hb Hm]. apply match_at_spec in Hm.
      rewrite (@rfind_from_last s e _ p q R Hq) in Hm; [discriminate|lia].
    + intros q [Hb Hm]. apply match_at_spec in Hm.
      rewrite (@rfind_from_none s e _ q R) in Hm; [discriminate|lia].
  - apply Nat.leb_gt in L. intros q [Hb _]. lia.
Qed.

Example rfind_last_of_two :
  rfind (lit "a.jpg.jpg") (lit ".jpg") = Some 5.
Proof. reflexivity. Qed.

Example rfind_inside_only :
  rfind (lit "a.jpg.bak") (lit ".jpg") = Some 1.
Proof. reflexivity. Qed.

(** * Further properties of the [Image] life cycle *)

Section ImageLifeCycle.

Variables DALIImageType Shape ImplError : Type.
Variable DecodeImpl :
  DALIImageType -> bytes -> N -> outcome ImplError (shared_ptr bytes * Shape).
Variable PeekShapeImpl : bytes -> N -> outcome ImplError Shape.
Variable shape_init : Shape.

Local Abbreviation Img := (Image DALIImageType Shape).
Local Abbreviation decode := (Decode DecodeImpl).
Local Abbreviation decode_impl_of := (decode_impl_of DecodeImpl).
Local Abbreviation get_image := (@GetImage DALIImageType Shape ImplError).
Local Abbreviation get_shape := (@GetShape DALIImageType Shape ImplError).
Local Abbreviation peek_shape :=
  (@PeekShape DALIImageType Shape ImplError PeekShapeImpl).
Local Abbreviation op_after := (after DecodeImpl PeekShapeImpl).
Local Abbreviation ops_after := (after_all DecodeImpl PeekShapeImpl).
Local Abbreviation count_returns :=
  (decode_returns DecodeImpl PeekShapeImpl).
Local Abbreviation not_decoded :=
  (InvalidState (ImplError := ImplError) "Image not decoded. Run Decode()").

(** The three ways [Decode] can end. *)
Lemma Decode_cases (img : Img) :
  (decoded_ img = true /\ snd (decode img) = img
   /\ returned (fst (decode img)) = false)
  \/ (decoded_ img = false /\ snd (decode img) = img
      /\ returned (fst (decode img)) = false
      /\ exists e, decode_impl_of img = Raises e)
  \/ (decoded_ img = false /\ returned (fst (decode img)) = true
      /\ exists b s, decode_impl_of img = Returns (b, s)
                     /\ snd (decode img) = decoded_with img b s).
Proof.
  destruct (decoded_ img) eqn:D.
  - left. now rewrite Decode_decoded.
  - right. destruct (decode_impl_of img) as [[b s]|e] eqn:R.
    + right. rewrite (@Decode_pending_ok _ _ _ DecodeImpl img b s D R). eauto 6.
    + left. rewrite (@Decode_pending_raises _ _ _ DecodeImpl img e D R). eauto 6.
Qed.

(** An operation other than [Decode] leaves the object as it is. *)
Lemma after_const (op : operation) (img : Img) :
  op <> OpDecode -> op_after op img = img.
Proof.
  intros H. destruct op; [congruence| | |]; unfold after.
  - destruct (decoded_ img) eqn:D;
      [now rewrite GetImage_decoded|now rewrite GetImage_pending].
  - now rewrite PeekShape_spec.
  - destruct (decoded_ img) eqn:D;
      [now rewrite GetShape_decoded|now rewrite GetShape_pending].
Qed.

(** No operation touches the encoded view or the colour type, and none
    clears the flag. *)
Lemma after_keeps (op : operation) (img : Img) :
  encoded_image_ (op_after op img) = encoded_image_ img
  /\ length_ (op_after op img) = length_ img
  /\ image_type_ (op_after op img) = image_type_ img
  /\ (decoded_ img = true -> decoded_ (op_after op img) = true).
Proof.
  destruct op;
    try (rewrite after_const by discriminate; auto).
  unfold after.
  destruct (Decode_cases img)
    as [[D [E _]]|[[D [E _]]|[D [_ [b [s [_ E]]]]]]]; rewrite E; auto.
Qed.

Lemma after_all_cons (op : operation) (ops : list operation) (img : Img) :
  ops_after (op :: ops) img = ops_after ops (op_after op img).
Proof. reflexivity. Qed.

(** X11: whatever operations are called, in any order and whether they
    return or throw, the encoded view, its length and the colour type
    stay as constructed and a set flag stays set; and a sequence without
    [Decode] leaves the whole object as it was. *)
Theorem only_Decode_changes_the_object (ops : list operation) (img : Img) :
  encoded_image_ (ops_after ops img) = encoded_image_ img
  /\ length_ (ops_after ops img) = length_ img
  /\ image_type_ (ops_after ops img) = image_type_ img
  /\ (decoded_ img = true -> decoded_ (ops_after ops img) = true)
  /\ (~ In OpDecode ops -> ops_after ops img = img).
Proof.
  revert img. induction ops as [|op ops IH]; intros img.
  - cbn. auto.
  - rewrite after_all_cons.
    destruct (IH (op_after op img)) as [E [L [T [D C]]]].
    destruct (after_keeps op img) as [E' [L' [T' D']]].
    rewrite E, L, T. repeat split; auto.
    intros Hn. rewrite C by (intros H; apply Hn; now right).
    apply after_const. intros ->. apply Hn. now left.
Qed.

(** The two states an object constructed over a payload can be in. *)
Lemma reachable_step
    (encoded_buffer : bytes) (length : N) (image_type : DALIImageType)
    (op : operation) (img : Img) :
  let fresh := Image_ctor shape_init encoded_buffer length image_type in
  (img = fresh
   \/ exists b s, DecodeImpl image_type encoded_buffer length = Returns (b, s)
                  /\ img = decoded_with fresh b s) ->
  op_after op img = fresh
  \/ exists b s, DecodeImpl image_type encoded_buffer length = Returns (b, s)
                 /\ op_after op img = decoded_with fresh b s.
Proof.
  intros fresh [->|[b [s [R ->]]]].
  - destruct op; try (rewrite after_const by discriminate; now left).
    unfold after.
    destruct (Decode_cases fresh)
      as [[D _]|[[_ [E _]]|[_ [_ [b [s [R E]]]]]]].
    + discriminate D.
    + left. exact E.
    + right. exists b, s. split; [exact R|exact E].
  - right. exists b, s. split; [exact R|].
    now apply after_decoded.
Qed.

Lemma reachable_all
    (encoded_buffer : bytes) (length : N) (image_type : DALIImageType)
    (ops : list operation) (img : Img) :
  let fresh := Image_ctor shape_init encoded_buffer length image_type in
  (img = fresh
   \/ exists b s, DecodeImpl image_type encoded_buffer length = Returns (b, s)
                  /\ img = decoded_with fresh b s) ->
  ops_after ops img = fresh
  \/ exists b s, DecodeImpl image_type encoded_buffer length = Returns (b, s)
                 /\ ops_after ops img = decoded_with fresh b s.
Proof.
  intros fresh. revert img. induction ops as [|op ops IH]; intros img H.
  - exact H.
  - rewrite after_all_cons. apply IH.
    now apply reachable_step.
Qed.

(** X12: an object constructed over a payload is, after any sequence of
    operations, in one of two states: as constructed, or decoded with
    the buffer and the shape that the extension point returns for the
    constructor's arguments. *)
Theorem Image_has_two_states
    (encoded_buffer : bytes) (length : N) (image_type : DALIImageType)
    (ops : list operation) :
  let fresh := Image_ctor shape_init encoded_buffer length image_type in
  ops_after ops fresh = fresh
  \/ exists b s, DecodeImpl image_type encoded_buffer length = Returns (b, s)
                 /\ ops_after ops fresh = decoded_with fresh b s.
Proof. intros fresh. apply reachable_all. now left. Qed.

(** X13: [PeekShape] gives the same outcome before and after any sequence
    of operations on the object, [Decode] included. *)
Theorem PeekShape_stable (ops : list operation) (img : Img) :
  fst (peek_shape (ops_after ops img)) = fst (peek_shape img).
Proof.
  rewrite !PeekShape_spec. cbn [fst].
  revert img. induction ops as [|op ops IH]; intros img; [reflexivity|].
  rewrite after_all_cons, IH.
  destruct (after_keeps op img) as [E [L _]]. now rewrite E, L.
Qed.

(** X14: when the extension point throws on the payload, no sequence of
    operations gets the object out of the pending state: it stays as
    constructed, the getters keep throwing the invalid-state error and
    [Decode] keeps passing on the extension's exception. *)
Theorem undecodable_stays_pending
    (encoded_buffer : bytes) (length : N) (image_type : DALIImageType)
    (e : ImplError) (ops : list operation) :
  DecodeImpl image_type encoded_buffer length = Raises e ->
  let fresh := Image_ctor shape_init encoded_buffer length image_type in
  let img := ops_after ops fresh in
  img = fresh
  /\ get_image img = (Raises not_decoded, img)
  /\ get_shape img = (Raises not_decoded, img)
  /\ decode img = (Raises (ExtensionError e), img).
Proof.
  intros R fresh img.
  assert (E : img = fresh).
  { destruct (@reachable_all encoded_buffer length image_type ops fresh
                (or_introl eq_refl)) as [H|[b [s [R' _]]]];
      [exact H|congruence]. }
  rewrite E. split; [reflexivity|]. split; [|split].
  - now apply GetImage_pending.
  - now apply GetShape_pending.
  - now apply Decode_pending_raises.
Qed.

(** X15: in any sequence of operations on any object at most one call of
    [Decode] returns, and none does once the flag is set. *)
Theorem Decode_returns_at_most_once (ops : list operation) (img : Img) :
  count_returns ops img <= 1
  /\ (decoded_ img = true -> count_returns ops img = 0).
Proof.
  assert (Z : forall ops img, decoded_ img = true -> count_returns ops img = 0).
  { clear ops img. induction ops as [|op ops IH]; intros img D; [reflexivity|].
    cbn [decode_returns].
    rewrite (after_decoded DecodeImpl PeekShapeImpl op img D), (IH img D).
    destruct op; try reflexivity.
    now rewrite (Decode_decoded DecodeImpl img D). }
  split; [|apply Z].
  revert img. induction ops as [|op ops IH]; intros img; [cbn; lia|].
  cbn [decode_returns].
  destruct op;
    try (rewrite after_const by discriminate; specialize (IH img); lia).
  destruct (Decode_cases img)
    as [[D [E F]]|[[D [E [F _]]]|[D [F [b [s [_ E]]]]]]];
    unfold after; rewrite F, E.
  - specialize (IH img). lia.
  - specialize (IH img). lia.
  - rewrite Z by reflexivity. lia.
Qed.

End ImageLifeCycle.

(** ** The life cycle at the toy format *)

Example sample_one_Decode_returns :
  decode_returns sample_DecodeImpl sample_PeekShapeImpl
    [OpGetShape; OpDecode; OpPeekShape; OpDecode; OpGetImage; OpDecode]
    sample_image = 1.
Proof. reflexivity. Qed.

Example sample_broken_no_Decode_returns :
  decode_returns sample_DecodeImpl sample_PeekShapeImpl
    [OpDecode; OpDecode] sample_broken_image = 0.
Proof. reflexivity. Qed.

Lemma only_Decode_changes_the_object_witness :
  ~ In OpDecode [OpGetImage; OpPeekShape; OpGetShape]
  /\ after_all sample_DecodeImpl sample_PeekShapeImpl
       [OpGetImage; OpPeekShape; OpGetShape] sample_image
     = sample_image.
Proof.
  assert (H : ~ In OpDecode [OpGetImage; OpPeekShape; OpGetShape]).
  { intros [H|[H|[H|[]]]]; discriminate H. }
  split; [exact H|].
  exact (proj2 (proj2 (proj2 (proj2
    (@only_Decode_changes_the_object _ _ _ sample_DecodeImpl
       sample_PeekShapeImpl [OpGetImage; OpPeekShape; OpGetShape]
       sample_image)))) H).
Defined.

Lemma undecodable_stays_pending_witness :
  sample_DecodeImpl sample_RGB sample_broken 3 = Raises "bad body"%string
  /\ after_all sample_DecodeImpl sample_PeekShapeImpl
       [OpDecode; OpGetImage; OpDecode; OpPeekShape] sample_broken_image
     = sample_broken_image.
Proof.
  assert (R : sample_DecodeImpl sample_RGB sample_broken 3
              = Raises "bad body"%string) by reflexivity.
  split; [exact R|].
  exact (proj1
    (@undecodable_stays_pending _ _ _ sample_DecodeImpl sample_PeekShapeImpl
       [] sample_broken 3%N sample_RGB _
       [OpDecode; OpGetImage; OpDecode; OpPeekShape] R)).
Defined.

Lemma Decode_returns_at_most_once_witness :
  let decoded := snd (Decode sample_DecodeImpl sample_image) in
  decoded_ decoded = true
  /\ decode_returns sample_DecodeImpl sample_PeekShapeImpl
       [OpDecode; OpGetImage; OpDecode] decoded = 0.
Proof.
  intros decoded.
  assert (D : decoded_ decoded = true) by reflexivity.
  split; [exact D|].
  exact (proj2
    (@Decode_returns_at_most_once _ _ _ sample_DecodeImpl sample_PeekShapeImpl
       [OpDecode; OpGetImage; OpDecode] decoded) D).
Defined.
